(** * Helper utilities of the NCSN experiments ([code/utils.py])

    A shallow embedding of the helpers in [code/utils.py]: the checkpoint
    functions [save_model] / [load_model], the tensor helpers [rescale] and
    [corruption], the noise schedule [get_sigmas], the transform
    [AddGaussianNoise], the two lambdas of the dataset [transform], the
    forward pass of [MockResidualBlock], [mkdir] and [is_square].

    Conventions of the embedding.
    - A Python dict is a [gmap] with string keys; the files written by
      [torch.save] live in a store that maps a path to the dict pickled there.
    - Python exceptions are values of [exn]; a function that may raise returns
      a [result].
    - Tensor entries are exact rationals ([Q]): the finite values of a float
      tensor, arithmetic without rounding.  [inf] and [nan] are not entries;
      a float division by zero, which torch answers with [inf] or [nan]
      instead of raising, is the outcome [NonFinite].
    - Where the rounding of a float32 tensor decides a statement, [rescale]
      is given a second time as [rescale_f32], the same statements over
      IEEE binary32 values ([spec_float], round to nearest even), with the
      Python scalars in binary64.
    - A tensor of rank [n] is a list nested [n] deep.  [torch.randn_like]
      is an argument: the tensor of samples that was drawn. *)

From Stdlib Require Import QArith Qminmax Lqa Lia ZArith SpecFloat.
From stdpp Require Import base option list strings gmap.

Local Open Scope string_scope.

(** ** Exceptions and results *)

Inductive exn : Type :=
  | AssertionError
  | KeyError (key : string)
  | FileNotFoundError (path : string)
  | RuntimeError
  | ValueError
  | NotImplementedError (msg : string).

Inductive result (A : Type) : Type :=
  | Ok (a : A)
  | Raise (e : exn)
  | NonFinite.

Arguments Ok {A} a.
Arguments Raise {A} e.
Arguments NonFinite {A}.

#[global] Instance result_ret : MRet result := fun A a => Ok a.

#[global] Instance result_bind : MBind result := fun A B k r =>
  match r with
  | Ok a => k a
  | Raise e => Raise e
  | NonFinite => NonFinite
  end.

(** ** Checkpoints: [save_model] and [load_model] *)

(** Python objects held in a checkpoint (modules, optimizers, buffers and
    their state dicts) are opaque values of a type [obj]; [PyNone] is
    Python's [None]. *)
Inductive pyval (obj : Type) : Type :=
  | PyNone
  | PyObj (o : obj).

Arguments PyNone {obj}.
Arguments PyObj {obj} o.

(** The dict that [save_model] pickles, and what [torch.save] has written:
    for each path the dict stored there. *)
Abbreviation checkpoint obj := (gmap string (pyval obj)).
Abbreviation store obj := (gmap string (gmap string (pyval obj))).

Section Checkpoint.

Context {obj : Type}.

(** The [state_dict()] method of a module or an optimizer. *)
Variable state_dict : obj -> obj.

(** [d.get(key, None)] *)
Definition dict_get (d : checkpoint obj) (key : string) : pyval obj :=
  match d !! key with
  | Some v => v
  | None => PyNone
  end.

(** [d[key]] *)
Definition dict_getitem (d : checkpoint obj) (key : string) : result (pyval obj) :=
  match d !! key with
  | Some v => Ok v
  | None => Raise (KeyError key)
  end.

(** [torch.save(d, path)] replaces whatever the path held.  The store is
    keyed by the path as the string given: two spellings of one file are
    two keys. *)
Definition torch_save (fs : store obj) (d : checkpoint obj) (path : string)
    : store obj :=
  <[path := d]> fs.

(** [torch.load(path)] *)
Definition torch_load (fs : store obj) (path : string) : result (checkpoint obj) :=
  match fs !! path with
  | Some d => Ok d
  | None => Raise (FileNotFoundError path)
  end.

(** [if v is not None: d[key] = f(v)] *)
Definition set_if_not_none (key : string) (f : obj -> obj) (v : pyval obj)
    (d : checkpoint obj) : checkpoint obj :=
  match v with
  | PyNone => d
  | PyObj o => <[key := PyObj (f o)]> d
  end.

Definition save_model (fs : store obj) (save_path : string) (model : obj)
    (optimizer replay_buffer discriminator optimizer_d : pyval obj) : store obj :=
  let save_dict : checkpoint obj := {[ "model" := PyObj (state_dict model) ]} in
  let save_dict := set_if_not_none "optimizer" state_dict optimizer save_dict in
  let save_dict := set_if_not_none "replay_buffer" id replay_buffer save_dict in
  let save_dict := set_if_not_none "discriminator" id discriminator save_dict in
  let save_dict := set_if_not_none "optimizer_d" id optimizer_d save_dict in
  torch_save fs save_dict save_path.

Definition load_model (fs : store obj) (load_path : string)
    : result (pyval obj * pyval obj * pyval obj * pyval obj * pyval obj) :=
  ckpt ← torch_load fs load_path;
  model ← dict_getitem ckpt "model";
  Ok (model,
      dict_get ckpt "optimizer",
      dict_get ckpt "replay_buffer",
      dict_get ckpt "discriminator",
      dict_get ckpt "optimizer_d").

(** What [save_model] stores for an optional argument that goes through
    [state_dict()]. *)
Definition state_of (v : pyval obj) : pyval obj :=
  match v with
  | PyNone => PyNone
  | PyObj o => PyObj (state_dict o)
  end.

End Checkpoint.

(** ** Tensors *)

Local Open Scope Q_scope.

(** A tensor of rank [n]: a scalar for rank 0, a list of tensors of rank
    [n] for rank [n + 1]. *)
Fixpoint tensor (n : nat) : Type :=
  match n with
  | O => Q
  | S k => list (tensor k)
  end.

(** The entries in row-major order. *)
Fixpoint elems (n : nat) : tensor n -> list Q :=
  match n with
  | O => fun v => [v]
  | S k => fun l => concat (map (elems k) l)
  end.

(** An entrywise function, such as [x - c] or [x * c] for a scalar [c]. *)
Fixpoint tmap (f : Q -> Q) (n : nat) : tensor n -> tensor n :=
  match n with
  | O => f
  | S k => map (tmap f k)
  end.

(** An entrywise operation on two tensors of one shape. *)
Fixpoint tzip (f : Q -> Q -> Q) (n : nat) : tensor n -> tensor n -> tensor n :=
  match n with
  | O => f
  | S k => zip_with (tzip f k)
  end.

(** [x.shape == y.shape] *)
Fixpoint all2 {A B : Type} (p : A -> B -> bool) (l : list A) (k : list B) : bool :=
  match l, k with
  | [], [] => true
  | a :: l', b :: k' => p a b && all2 p l' k'
  | _, _ => false
  end.

Fixpoint same_shape (n : nat) : tensor n -> tensor n -> bool :=
  match n with
  | O => fun _ _ => true
  | S k => all2 (same_shape k)
  end.

(** [max] and [min] of a list of entries; nothing for the empty list. *)
Definition list_max (l : list Q) : option Q :=
  match l with
  | [] => None
  | v :: l' => Some (foldr Qmax v l')
  end.

Definition list_min (l : list Q) : option Q :=
  match l with
  | [] => None
  | v :: l' => Some (foldr Qmin v l')
  end.

(** [torch.max(x)] and [torch.min(x)] over all entries; torch raises a
    [RuntimeError] on a tensor without entries. *)
Definition torch_max (n : nat) (x : tensor n) : result Q :=
  match list_max (elems n x) with
  | Some v => Ok v
  | None => Raise RuntimeError
  end.

Definition torch_min (n : nat) (x : tensor n) : result Q :=
  match list_min (elems n x) with
  | Some v => Ok v
  | None => Raise RuntimeError
  end.

(** Float division: a zero divisor leaves the finite values. *)
Definition fdiv (a b : Q) : result Q :=
  if Qeq_bool b 0 then NonFinite else Ok (a / b).

(** [a < b] as a test. *)
Definition Qlt_bool (a b : Q) : bool := negb (Qle_bool b a).

(** ** [rescale] *)

(** [rescale] in exact arithmetic: the statements of the source with no
    rounding.  The assertion, the empty input, the zero divisor and the
    shape do not depend on rounding; what does is stated on [rescale_f32]
    below. *)
Definition rescale (n : nat) (x : tensor n) (lo hi : Q) : result (tensor n) :=
  if negb (Qlt_bool lo hi) then Raise AssertionError else
  mx ← torch_max n x;
  mn ← torch_min n x;
  let old_width := mx - mn in
  let old_center := mn + old_width / 2 in
  let new_width := hi - lo in
  let new_center := lo + new_width / 2 in
  let x := tmap (fun v => v - old_center) n x in
  scale ← fdiv new_width old_width;
  let x := tmap (fun v => v * scale) n x in
  let x := tmap (fun v => v + new_center) n x in
  Ok x.

(** ** [rescale] on float32 tensors *)













(** ** [corruption] *)

(** [torch.arange(start, stop, step)] on naturals, for a positive step. *)
Definition arange (start stop step : nat) : list nat :=
  map (fun k => (start + k * step)%nat)
      (seq 0 ((stop - start + (step - 1)) / step)).

(** A matrix is a tensor of rank 2, the list of its rows; a row is a
    tensor of rank 1. *)
Abbreviation row := (list Q).
Abbreviation matrix := (list (list Q)).

(** [r[:] = 1] *)
Definition ones_row (r : row) : row := map (fun _ => 1) r.

(** [m[i, :] = 1] *)
Definition fill_row (m : matrix) (i : nat) : matrix :=
  alter ones_row i m.

(** [m[idx, :] = 1] for a list of row indices. *)
Definition fill_rows (idx : list nat) (m : matrix) : matrix :=
  foldl fill_row m idx.

(** [m[:k, :] = 1] *)
Definition fill_rows_upto (k : nat) (m : matrix) : matrix :=
  (map ones_row (take k m) ++ drop k m)%list.

(** An operation on the last two dimensions, whatever leads them: the
    [...] of [mask[..., rows, :]].  The rank is [2 + n]. *)
Fixpoint on_matrices (f : matrix -> matrix) (n : nat)
    : tensor (2 + n) -> tensor (2 + n) :=
  match n with
  | O => f
  | S k => map (on_matrices f k)
  end.

(** The matrices of a tensor of rank [2 + n], in order. *)
Fixpoint matrices (n : nat) : tensor (2 + n) -> list matrix :=
  match n with
  | O => fun m => [m]
  | S k => fun l => concat (map (matrices k) l)
  end.

Definition zeros_like (n : nat) (x : tensor n) : tensor n :=
  tmap (fun _ => 0) n x.

(** [torch.clamp(t, lo, hi)] *)
Definition clamp (n : nat) (t : tensor n) (lo hi : Q) : tensor n :=
  tmap (fun v => Qmin (Qmax v lo) hi) n t.

(** The literals [1e-4] and [0.3]. *)
Definition eps : Q := 1 # 10000.
Definition default_noise_scale : Q := 3 # 10.

(** The mask alone: [mask.shape[-2]] is the number of rows of each matrix. *)
Definition corruption_mask (n : nat) (x : tensor (2 + n)) (type_ : string)
    : tensor (2 + n) :=
  let mask := zeros_like (2 + n) x in
  if String.eqb type_ "ebm" then
    on_matrices (fun m => fill_rows (arange 0 (length m) 2) m) n mask
  else if String.eqb type_ "flow" then
    on_matrices (fun m => fill_rows_upto (length m / 2) m) n mask
  else mask.

(** [randn] is the tensor that [torch.randn_like(x)] returned; the defaults
    of the source are [type_ = "ebm"] and [noise_scale = 0.3]. *)
Definition corruption (n : nat) (x : tensor (2 + n)) (type_ : string)
    (noise_scale : Q) (randn : tensor (2 + n))
    : result (tensor (2 + n) * tensor (2 + n)) :=
  if negb (bool_decide (type_ ∈ ["ebm"; "flow"])) then Raise AssertionError else
  let mask := corruption_mask n x type_ in
  let broken_data :=
    tzip Qplus (2 + n)
      (tzip Qmult (2 + n) x mask)
      (tzip Qmult (2 + n)
         (tmap (fun v => v * noise_scale) (2 + n)
            (tmap (fun m => 1 - m) (2 + n) mask))
         randn) in
  let broken_data := clamp (2 + n) broken_data eps (1 - eps) in
  Ok (broken_data, mask).

(** ** [get_sigmas] *)

(** [np.linspace(start, stop, num)] as numpy documents it: [num] samples
    [start + i * step] with [step = (stop - start) / (num - 1)], the last
    one set to [stop]; a negative [num] is a [ValueError]. *)
Definition linspace (start stop : Q) (num : Z) : result (list Q) :=
  if (num <? 0)%Z then Raise ValueError else
  let count := Z.to_nat num in
  let step := (stop - start) / inject_Z (num - 1) in
  let y := map (fun i => inject_Z (Z.of_nat i) * step + start) (seq 0 count) in
  Ok (if (1 <? num)%Z then <[(count - 1)%nat := stop]> y else y).

(** [config.model] *)
Record model_config : Type := {
  sigma_dist : string;
  sigma_begin : Q;
  sigma_end : Q;
  num_classes : Z
}.

Record config : Type := { model : model_config }.

Section Sigmas.

(** [np.exp] and [np.log], which have no rational values to compute. *)
Variables np_exp np_log : Q -> Q.

(** The result is a tensor of rank 1, with the values that [np.linspace]
    computed: the narrowing of [.float()] to float32 and the move of
    [.cuda()] are not modelled. *)
Definition get_sigmas (cfg : config) : result (tensor 1) :=
  if String.eqb (sigma_dist (model cfg)) "geometric" then
    y ← linspace (np_log (sigma_begin (model cfg)))
                 (np_log (sigma_end (model cfg)))
                 (num_classes (model cfg));
    Ok (map np_exp y)
  else if String.eqb (sigma_dist (model cfg)) "uniform" then
    linspace (sigma_begin (model cfg)) (sigma_end (model cfg))
             (num_classes (model cfg))
  else Raise (NotImplementedError "sigma distribution not supported").

End Sigmas.

(** ** [AddGaussianNoise] *)

(** The object built by [AddGaussianNoise(mean, std)]; the defaults are
    [mean = 0.0] and [std = 1.0]. *)
Record AddGaussianNoise : Type := { mean : Q; std : Q }.

Definition default_AddGaussianNoise : AddGaussianNoise :=
  {| mean := 0; std := 1 |}.

(** [__call__]: [randn] is the tensor that [torch.randn(tensor.size())]
    returned. *)
Definition AddGaussianNoise_call (self : AddGaussianNoise) (n : nat)
    (tensor_ randn : tensor n) : tensor n :=
  let noise := tmap (fun v => v * std self + mean self) n randn in
  tzip Qplus n tensor_ noise.

(** ** The dataset transform *)

(** [lambda x: x + torch.rand_like(x).div_(256.)]: [rand] is the tensor
    that [torch.rand_like(x)] returned. *)
Definition add_uniform_noise (n : nat) (x rand : tensor n) : tensor n :=
  tzip Qplus n x (tmap (fun v => v / 256) n rand).

(** [lambda x: rescale(x, 0.0001, 0.9999)] *)
Definition rescale_unit (n : nat) (x : tensor n) : result (tensor n) :=
  rescale n x (1 # 10000) (9999 # 10000).

(** The two lambdas of [transform] in order, on the tensor that
    [ToTensor] made of the image. *)
Definition transform (n : nat) (x rand : tensor n) : result (tensor n) :=
  rescale_unit n (add_uniform_noise n x rand).

(** ** [MockResidualBlock] *)

(** [F.relu] *)
Definition relu (n : nat) (t : tensor n) : tensor n :=
  tmap (fun v => Qmax v 0) n t.

Section ResidualBlock.

Variable n : nat.

(** The two convolutions with their batch norms ([self.conv]) and the 1 by
    1 projection with its batch norm, as the functions they compute. *)
Variables conv projection : tensor n -> tensor n.

(** [self.skip_connection] as [__init__] chooses it. *)
Definition skip_connection (c_in c_out : nat) : tensor n -> tensor n :=
  if negb (c_in =? c_out)%nat then projection else id.

Definition forward (c_in c_out : nat) (output_activation : bool)
    (x : tensor n) : tensor n :=
  if output_activation then
    relu n (tzip Qplus n (conv x) (skip_connection c_in c_out x))
  else
    tzip Qplus n (conv x) (skip_connection c_in c_out x).

End ResidualBlock.

(** ** [mkdir] *)

Section Mkdir.

(** The file system, with [os.path.exists] and [os.makedirs]. *)
Context {filesystem : Type}.
Variable os_path_exists : filesystem -> string -> bool.
Variable os_makedirs : filesystem -> string -> result filesystem.

Definition mkdir (fs : filesystem) (path : string) : result filesystem :=
  if negb (os_path_exists fs path) then os_makedirs fs path else Ok fs.

End Mkdir.

(** ** [is_square] *)

Section IsSquare.

(** [int(n**0.5)]: the float power and its truncation, with whatever
    they raise (a negative [n] has a complex power, a huge one does not
    fit a float). *)
Variable int_sqrt : Z -> result Z.

Definition is_square (n : Z) : result bool :=
  if (n =? 0)%Z then Ok true else
  r ← int_sqrt n;
  Ok (n =? r ^ 2)%Z.

End IsSquare.

(** ** What the statements below speak about *)

(** The rows of a mask [mm] against the rows of the image [mx] it was made
    for: the mask has as many rows, and row [i] is as wide as the image's
    row and holds 1 throughout when [sel H i] (with [H] the number of
    rows), 0 throughout otherwise. *)
Definition row_mask (sel : nat -> nat -> bool) (mx mm : matrix) : Prop :=
  length mm = length mx /\
  forall (i : nat) (r : row), mx !! i = Some r ->
    mm !! i = Some (replicate (length r) (if sel (length mx) i then 1 else 0)).

(** Row [i] of [H] rows lies in the top half. *)
Definition top_half (H i : nat) : bool := (i <? H / 2)%nat.

(** Row [i] lies in the bottom half. *)
Definition bottom_half (H i : nat) : bool := negb (top_half H i).

(** Row [i] has an even index. *)
Definition even_row (H i : nat) : bool := Nat.even i.

(** The entries of a tensor lie in the closed interval from [lo] to [hi]. *)
Definition within (lo hi : Q) (n : nat) (t : tensor n) : Prop :=
  Forall (fun v => lo <= v /\ v <= hi) (elems n t).

(** The three steps of [rescale] on one entry, for an input whose
    maximum is [M] and minimum is [m]. *)
Definition remap (lo hi M m : Q) (v : Q) : Q :=
  (v - (m + (M - m) / 2)) * ((hi - lo) / (M - m)) + (lo + (hi - lo) / 2).

(** ** Sample inputs *)

(** A checkpoint file without the key [model], and one with it. *)
Definition no_model_store : store nat :=
  {[ "ckpt.pth" := {[ "optimizer" := PyObj 7%nat ]} ]}.

Definition full_store : store nat :=
  {[ "ckpt.pth" := {[ "model" := PyObj 3%nat; "optimizer" := PyObj 7%nat ]} ]}.

(** A 4 by 4 image of ones, a 3 by 2 image, and a batch of two 2 by 2
    images. *)
Definition ones4 : tensor 2 :=
  [[1; 1; 1; 1]; [1; 1; 1; 1]; [1; 1; 1; 1]; [1; 1; 1; 1]].

Definition img32 : tensor 2 := [[1 # 2; 1 # 4]; [3 # 4; 1]; [0; 1 # 8]].

Definition batch22 : tensor 3 :=
  [[[1 # 2; 1 # 4]; [3 # 4; 1]]; [[0; 1 # 8]; [1; 1 # 3]]].

Definition noise22 : tensor 3 :=
  [[[-(5 # 2); 1 # 4]; [7; -1]]; [[0; 12]; [-3; 1 # 3]]].

Definition uniform_1_10 : config :=
  {| model := {| sigma_dist := "uniform"; sigma_begin := 1;
                 sigma_end := 10; num_classes := 10 |} |}.

(** A configuration with a negative count. *)
Definition negative_count : config :=
  {| model := {| sigma_dist := "geometric"; sigma_begin := 1;
                 sigma_end := 1 # 100; num_classes := -1 |} |}.



(** A 2 by 2 image with the 8-bit levels 0, 10, 11 and 255, and a draw of
    [torch.rand_like] for it. *)
Definition levels22 : tensor 2 := [[0; 10 / 255]; [11 / 255; 1]].

Definition rand22 : tensor 2 := [[1 # 2; 255 # 256]; [0; 1 # 3]].

(** An [int(n**0.5)] without rounding error. *)
Definition exact_int_sqrt (n : Z) : result Z := Ok (Z.sqrt n).

(** A store of directories for [mkdir]: the set of the paths that exist;
    [os.makedirs] adds the path. *)
Definition set_exists (fs : gset string) (path : string) : bool :=
  bool_decide (path ∈ fs).

Definition set_makedirs (fs : gset string) (path : string) : result (gset string) :=
  Ok ({[ path ]} ∪ fs).

(** ** Checkpoints: what [load_model] returns *)

Section CheckpointFacts.

Context {obj : Type}.
Variable state_dict : obj -> obj.

Lemma torch_load_save (fs : store obj) (d : checkpoint obj) (path : string) :
  torch_load (torch_save fs d path) path = Ok d.
Proof. unfold torch_load, torch_save. by rewrite lookup_insert_eq. Qed.

Lemma dict_get_set_eq key f (v : pyval obj) (d : checkpoint obj) :
  d !! key = None ->
  dict_get (set_if_not_none key f v d) key
  = match v with PyNone => PyNone | PyObj o => PyObj (f o) end.
Proof.
  intros Hd. unfold dict_get, set_if_not_none. destruct v as [|o].
  - by rewrite Hd.
  - by rewrite lookup_insert_eq.
Qed.

Lemma lookup_set_ne key key' f (v : pyval obj) (d : checkpoint obj) :
  key <> key' -> set_if_not_none key f v d !! key' = d !! key'.
Proof.
  intros Hne. unfold set_if_not_none. destruct v as [|o]; [done|].
  by rewrite lookup_insert_ne.
Qed.

Lemma dict_get_set_ne key key' f (v : pyval obj) (d : checkpoint obj) :
  key <> key' -> dict_get (set_if_not_none key f v d) key' = dict_get d key'.
Proof. intros Hne. unfold dict_get. by rewrite lookup_set_ne. Qed.

(** C3.  Saving and then loading from the same path gives back the
    model's state dict, the state of the optimizer when one was given, and
    each other optional argument as it was given; an optional argument
    that was not supplied ([PyNone]) comes back as [PyNone]. *)
Theorem save_then_load (fs : store obj) (path : string) (m : obj)
    (optimizer replay_buffer discriminator optimizer_d : pyval obj) :
  load_model
    (save_model state_dict fs path m
       optimizer replay_buffer discriminator optimizer_d) path
  = Ok (PyObj (state_dict m), state_of state_dict optimizer,
        replay_buffer, discriminator, optimizer_d).
Proof.
  unfold load_model, save_model. rewrite torch_load_save. simpl.
  unfold dict_getitem.
  rewrite !lookup_set_ne by done. rewrite lookup_singleton_eq. simpl.
  rewrite (dict_get_set_eq "optimizer_d");
    [| rewrite !lookup_set_ne by done; by rewrite lookup_singleton_ne].
  rewrite (dict_get_set_ne "optimizer_d" "discriminator") by done.
  rewrite (dict_get_set_eq "discriminator");
    [| rewrite !lookup_set_ne by done; by rewrite lookup_singleton_ne].
  rewrite !(dict_get_set_ne _ "replay_buffer") by done.
  rewrite (dict_get_set_eq "replay_buffer");
    [| rewrite !lookup_set_ne by done; by rewrite lookup_singleton_ne].
  rewrite !(dict_get_set_ne _ "optimizer") by done.
  rewrite (dict_get_set_eq "optimizer");
    [| by rewrite lookup_singleton_ne].
  unfold state_of, id.
  by destruct optimizer, replay_buffer, discriminator, optimizer_d.
Qed.

(** C2, as the code has it.  For a checkpoint stored at the path:
    when it has the key [model], [load_model] returns the five fields, each
    optional one being the stored value or [PyNone] when its key is absent;
    when the key [model] is absent, [load_model] raises [KeyError]. *)
Theorem load_model_fields (fs : store obj) (path : string) (d : checkpoint obj) :
  fs !! path = Some d ->
  (forall v, d !! "model" = Some v ->
     exists o r k od,
       load_model fs path = Ok (v, o, r, k, od) /\
       o = default PyNone (d !! "optimizer") /\
       r = default PyNone (d !! "replay_buffer") /\
       k = default PyNone (d !! "discriminator") /\
       od = default PyNone (d !! "optimizer_d")) /\
  (d !! "model" = None -> load_model fs path = Raise (KeyError "model")).
Proof.
  intros Hfs. unfold load_model, torch_load. rewrite Hfs. simpl.
  unfold dict_getitem. split.
  - intros v Hv. rewrite Hv. simpl. unfold dict_get.
    do 4 eexists. split; [reflexivity|].
    repeat split; by destruct (d !! _).
  - intros Hv. by rewrite Hv.
Qed.

End CheckpointFacts.

(** C2 fails as stated: with the key [model] absent nothing is returned. *)
Lemma load_model_no_model_key :
  no_model_store !! "ckpt.pth" = Some {[ "optimizer" := PyObj 7%nat ]} /\
  load_model no_model_store "ckpt.pth" = Raise (KeyError "model") /\
  ~ (exists fields, load_model no_model_store "ckpt.pth" = Ok fields).
Proof.
  assert (H : load_model no_model_store "ckpt.pth" = Raise (KeyError "model"))
    by reflexivity.
  split; [reflexivity|]. split; [exact H|].
  intros [fields Hf]. rewrite H in Hf. discriminate.
Qed.

(** C2 on a checkpoint that holds a model and an optimizer only. *)
Lemma load_model_fields_witness :
  full_store !! "ckpt.pth"
  = Some {[ "model" := PyObj 3%nat; "optimizer" := PyObj 7%nat ]} /\
  load_model full_store "ckpt.pth"
  = Ok (PyObj 3%nat, PyObj 7%nat, PyNone, PyNone, PyNone).
Proof.
  split; [reflexivity|].
  destruct (load_model_fields full_store "ckpt.pth"
              {[ "model" := PyObj 3%nat; "optimizer" := PyObj 7%nat ]}
              eq_refl) as [Hok _].
  destruct (Hok (PyObj 3%nat) eq_refl) as (o & r & k & od & -> & -> & -> & -> & ->).
  reflexivity.
Defined.

(** ** Tensors: entries, minimum and maximum *)

Lemma elems_tmap (f : Q -> Q) (n : nat) (x : tensor n) :
  elems n (tmap f n x) = map f (elems n x).
Proof.
  induction n as [|k IH]; simpl; [reflexivity|].
  induction x as [|t x IHx]; simpl; [reflexivity|].
  by rewrite map_app, IH, IHx.
Qed.

Lemma Qlt_bool_iff (a b : Q) : Qlt_bool a b = true <-> a < b.
Proof.
  unfold Qlt_bool. rewrite negb_true_iff. split.
  - intros H. apply Qnot_le_lt. intros Hle.
    apply Qle_bool_iff in Hle. congruence.
  - intros H. destruct (Qle_bool b a) eqn:E; [|reflexivity].
    apply Qle_bool_iff in E. apply Qlt_not_le in H. contradiction.
Qed.

Lemma Qmin_cases (a b : Q) : (Qmin a b = a /\ a <= b) \/ (Qmin a b = b /\ b <= a).
Proof.
  unfold Qmin, GenericMinMax.gmin. destruct (a ?= b) eqn:E.
  - left. split; [reflexivity|]. apply Qeq_alt in E. rewrite E. apply Qle_refl.
  - left. split; [reflexivity|]. apply Qlt_alt in E. by apply Qlt_le_weak.
  - right. split; [reflexivity|]. apply Qgt_alt in E. by apply Qlt_le_weak.
Qed.

Lemma Qmax_cases (a b : Q) : (Qmax a b = a /\ b <= a) \/ (Qmax a b = b /\ a <= b).
Proof.
  unfold Qmax, GenericMinMax.gmax. destruct (a ?= b) eqn:E.
  - left. split; [reflexivity|]. apply Qeq_alt in E. rewrite E. apply Qle_refl.
  - right. split; [reflexivity|]. apply Qlt_alt in E. by apply Qlt_le_weak.
  - left. split; [reflexivity|]. apply Qgt_alt in E. by apply Qlt_le_weak.
Qed.

(** The minimum is an entry and a lower bound. *)
Lemma list_min_spec (l : list Q) (m : Q) :
  list_min l = Some m -> m ∈ l /\ Forall (fun a => m <= a) l.
Proof.
  destruct l as [|v l]; [discriminate|]. simpl. intros [= <-].
  induction l as [|a l [IHin IHle]]; simpl.
  - split; [left|]. constructor; [apply Qle_refl|constructor].
  - apply Forall_cons in IHle as [Hv Hl].
    destruct (Qmin_cases a (foldr Qmin v l)) as [[-> Hle]|[-> Hle]].
    + split; [right; left|].
      constructor; [by apply Qle_trans with (foldr Qmin v l)|].
      constructor; [apply Qle_refl|].
      eapply Forall_impl; [exact Hl|]. simpl. intros b Hb.
      by apply Qle_trans with (foldr Qmin v l).
    + split.
      * apply elem_of_cons in IHin as [Heq|Hin]; [rewrite Heq; left|].
        right; by right.
      * constructor; [exact Hv|]. by constructor.
Qed.

(** The maximum is an entry and an upper bound. *)
Lemma list_max_spec (l : list Q) (m : Q) :
  list_max l = Some m -> m ∈ l /\ Forall (fun a => a <= m) l.
Proof.
  destruct l as [|v l]; [discriminate|]. simpl. intros [= <-].
  induction l as [|a l [IHin IHle]]; simpl.
  - split; [left|]. constructor; [apply Qle_refl|constructor].
  - apply Forall_cons in IHle as [Hv Hl].
    destruct (Qmax_cases a (foldr Qmax v l)) as [[-> Hle]|[-> Hle]].
    + split; [right; left|].
      constructor; [by apply Qle_trans with (foldr Qmax v l)|].
      constructor; [apply Qle_refl|].
      eapply Forall_impl; [exact Hl|]. simpl. intros b Hb.
      by apply Qle_trans with (foldr Qmax v l).
    + split.
      * apply elem_of_cons in IHin as [Heq|Hin]; [rewrite Heq; left|].
        right; by right.
      * constructor; [exact Hv|]. by constructor.
Qed.





Lemma torch_min_Ok (n : nat) (x : tensor n) (m : Q) :
  torch_min n x = Ok m <-> list_min (elems n x) = Some m.
Proof.
  unfold torch_min. destruct (list_min (elems n x)); split; congruence.
Qed.

Lemma torch_max_Ok (n : nat) (x : tensor n) (m : Q) :
  torch_max n x = Ok m <-> list_max (elems n x) = Some m.
Proof.
  unfold torch_max. destruct (list_max (elems n x)); split; congruence.
Qed.

(** A tensor whose entries all equal [c] has its maximum equal to its
    minimum. *)
Lemma constant_max_eq_min (n : nat) (x : tensor n) (c M m : Q) :
  Forall (fun v => v == c) (elems n x) ->
  torch_max n x = Ok M -> torch_min n x = Ok m -> M == m.
Proof.
  intros Hc HM Hm. rewrite Forall_forall in Hc.
  apply torch_max_Ok, list_max_spec in HM as [HM _].
  apply torch_min_Ok, list_min_spec in Hm as [Hm _].
  by rewrite (Hc M HM), (Hc m Hm).
Qed.

(** ** [rescale] *)

(** Past the assertion, with the extremes of the input at hand. *)
Lemma rescale_unfold (n : nat) (x : tensor n) (lo hi M m : Q) :
  lo < hi -> torch_max n x = Ok M -> torch_min n x = Ok m ->
  rescale n x lo hi =
    match fdiv (hi - lo) (M - m) with
    | Ok scale =>
        Ok (tmap (fun v => v + (lo + (hi - lo) / 2)) n
              (tmap (fun v => v * scale) n
                 (tmap (fun v => v - (m + (M - m) / 2)) n x)))
    | Raise e => Raise e
    | NonFinite => NonFinite
    end.
Proof.
  intros Hlt HM Hm. unfold rescale.
  apply Qlt_bool_iff in Hlt. rewrite Hlt, HM, Hm. simpl.
  by destruct (fdiv (hi - lo) (M - m)).
Qed.

Lemma fdiv_nonzero (a b : Q) : ~ b == 0 -> fdiv a b = Ok (a / b).
Proof.
  intros Hb. unfold fdiv. destruct (Qeq_bool b 0) eqn:E; [|reflexivity].
  apply Qeq_bool_iff in E. contradiction.
Qed.

Lemma fdiv_zero (a b : Q) : b == 0 -> fdiv a b = NonFinite.
Proof.
  intros Hb. unfold fdiv. apply Qeq_bool_iff in Hb. by rewrite Hb.
Qed.




Lemma rescale_nonconstant (n : nat) (x : tensor n) (lo hi M m : Q) :
  lo < hi -> torch_max n x = Ok M -> torch_min n x = Ok m -> m < M ->
  exists y, rescale n x lo hi = Ok y /\
            elems n y = map (remap lo hi M m) (elems n x).
Proof.
  intros Hlt HM Hm HmM.
  rewrite (rescale_unfold n x lo hi M m Hlt HM Hm).
  rewrite fdiv_nonzero by lra.
  eexists. split; [reflexivity|].
  rewrite !elems_tmap, !map_map. reflexivity.
Qed.




(** C5.  Whatever the input, [rescale] raises the assertion failure when
    [lo >= hi], and does not raise it when [lo < hi]. *)
Theorem rescale_assertion (n : nat) (x : tensor n) (lo hi : Q) :
  (hi <= lo -> rescale n x lo hi = Raise AssertionError) /\
  (lo < hi -> rescale n x lo hi <> Raise AssertionError).
Proof.
  unfold rescale. split.
  - intros Hle. destruct (Qlt_bool lo hi) eqn:E; [|reflexivity].
    apply Qlt_bool_iff in E. apply Qlt_not_le in E. contradiction.
  - intros Hlt. apply Qlt_bool_iff in Hlt. rewrite Hlt. simpl.
    unfold torch_max, torch_min.
    destruct (list_max (elems n x)); simpl; [|discriminate].
    destruct (list_min (elems n x)); simpl; [|discriminate].
    unfold fdiv. destruct (Qeq_bool _ 0); simpl; discriminate.
Qed.

(** C5 at [lo = hi], at [lo > hi] and at [lo < hi]. *)
Lemma rescale_assertion_witness :
  rescale 2 img32 1 1 = Raise AssertionError /\
  rescale 2 img32 (1 # 2) (1 # 3) = Raise AssertionError /\
  rescale 2 img32 0 1 <> Raise AssertionError.
Proof.
  split; [|split].
  - apply (proj1 (rescale_assertion 2 img32 1 1)). discriminate.
  - apply (proj1 (rescale_assertion 2 img32 (1 # 2) (1 # 3))). discriminate.
  - apply (proj2 (rescale_assertion 2 img32 0 1)). reflexivity.
Defined.

(** C8.  The scaling step divides by the width [M - m] of the input
    without a guard.  For an input with entries and [lo < hi]: when the
    input is constant ([M == m]) the divisor is zero and [rescale] ends in
    the division by zero; the division is a division by a nonzero width,
    and [rescale] returns a tensor, exactly when the input is not constant. *)
Theorem rescale_constant_divides_by_zero (n : nat) (x : tensor n) (lo hi M m : Q) :
  torch_max n x = Ok M -> torch_min n x = Ok m -> lo < hi ->
  (M == m ->
     M - m == 0 /\ fdiv (hi - lo) (M - m) = NonFinite /\
     rescale n x lo hi = NonFinite) /\
  (m < M <-> exists y, rescale n x lo hi = Ok y).
Proof.
  intros HM Hm Hlt.
  assert (Hconst : M == m -> rescale n x lo hi = NonFinite).
  { intros Heq. rewrite (rescale_unfold n x lo hi M m Hlt HM Hm).
    rewrite fdiv_zero; [reflexivity | lra]. }
  split; [|split].
  - intros Heq. split; [lra|]. split; [apply fdiv_zero; lra | by apply Hconst].
  - intros HmM.
    destruct (rescale_nonconstant n x lo hi M m Hlt HM Hm HmM) as (y & Hy & _).
    eauto.
  - intros [y Hy].
    apply torch_max_Ok, list_max_spec in HM as [HMin HMle].
    apply torch_min_Ok, list_min_spec in Hm as [Hmin Hmle].
    rewrite Forall_forall in HMle. specialize (HMle m Hmin).
    destruct (Qlt_le_dec m M) as [Hlt'|Hge]; [exact Hlt'|].
    rewrite Hconst in Hy; [discriminate|]. by apply Qle_antisym.
Qed.

(** C8 on a constant 2 by 2 image and on the 3 by 2 image. *)
Lemma rescale_constant_divides_by_zero_witness :
  torch_max 2 [[1 # 2; 1 # 2]; [1 # 2; 1 # 2]] = Ok (1 # 2) /\
  torch_min 2 [[1 # 2; 1 # 2]; [1 # 2; 1 # 2]] = Ok (1 # 2) /\
  rescale 2 [[1 # 2; 1 # 2]; [1 # 2; 1 # 2]] 0 1 = NonFinite /\
  exists y, rescale 2 img32 0 1 = Ok y.
Proof.
  split; [reflexivity|]. split; [reflexivity|]. split.
  - apply (rescale_constant_divides_by_zero 2 [[1 # 2; 1 # 2]; [1 # 2; 1 # 2]]
             0 1 (1 # 2) (1 # 2)); reflexivity.
  - apply (rescale_constant_divides_by_zero 2 img32 0 1 1 0); reflexivity.
Defined.

(** ** [corruption]: the mask *)

Lemma matrices_on_matrices (f : matrix -> matrix) (n : nat) (x : tensor (2 + n)) :
  matrices n (on_matrices f n x) = map f (matrices n x).
Proof.
  induction n as [|k IH]; [reflexivity|].
  simpl in x |- *. induction x as [|t x IHx]; simpl; [reflexivity|].
  by rewrite map_app, IH, IHx.
Qed.

Lemma matrices_tmap (g : Q -> Q) (n : nat) (x : tensor (2 + n)) :
  matrices n (tmap g (2 + n) x) = map (tmap g 2) (matrices n x).
Proof.
  induction n as [|k IH]; [reflexivity|].
  simpl in x |- *. induction x as [|t x IHx]; simpl; [reflexivity|].
  rewrite map_app. f_equal; [apply IH | apply IHx].
Qed.

Lemma map_const_replicate {A : Type} (c : Q) (l : list A) :
  map (fun _ => c) l = replicate (length l) c.
Proof. induction l as [|a l IH]; simpl; [reflexivity | by rewrite IH]. Qed.

Lemma ones_row_idem (o : option row) :
  ones_row <$> (ones_row <$> o) = ones_row <$> o.
Proof.
  destruct o as [r|]; simpl; [|reflexivity].
  unfold ones_row. by rewrite map_map.
Qed.

(** Rows of [arange(0, H, 2)]: the even indices below [H], all in range. *)
Lemma elem_of_arange_even (H i : nat) :
  i ∈ arange 0 H 2 <-> (i < H)%nat /\ Nat.even i = true.
Proof.
  unfold arange. rewrite list_elem_of_fmap.
  replace (H - 0 + (2 - 1))%nat with (H + 1)%nat by lia.
  pose proof (Nat.div_mod_eq (H + 1) 2) as Hdm.
  pose proof (Nat.mod_upper_bound (H + 1) 2) as Hmod.
  split.
  - intros (k & -> & Hk). apply list_elem_of_In, in_seq in Hk.
    split; [lia|]. apply Nat.even_spec. exists k. lia.
  - intros [Hlt Hev]. apply Nat.even_spec in Hev as [k ->].
    exists k. split; [lia|].
    apply list_elem_of_In, in_seq. lia.
Qed.

Lemma fill_rows_length (idx : list nat) (m : matrix) :
  length (fill_rows idx m) = length m.
Proof.
  unfold fill_rows. revert m.
  induction idx as [|j idx IH]; intros m; simpl; [reflexivity|].
  rewrite IH. unfold fill_row. apply length_alter.
Qed.

(** [m[idx, :] = 1] leaves the rows that [idx] does not list and turns
    the rows it lists into ones. *)
Lemma fill_rows_lookup_notin (idx : list nat) (m : matrix) (i : nat) :
  i ∉ idx -> fill_rows idx m !! i = m !! i.
Proof.
  unfold fill_rows. revert m.
  induction idx as [|j idx IH]; intros m Hin; [reflexivity|].
  apply not_elem_of_cons in Hin as [Hne Hin].
  change (foldl fill_row m (j :: idx)) with (foldl fill_row (fill_row m j) idx).
  rewrite IH by done. unfold fill_row. by rewrite list_lookup_alter_ne.
Qed.

Lemma fill_rows_lookup_in (idx : list nat) (m : matrix) (i : nat) :
  i ∈ idx -> fill_rows idx m !! i = ones_row <$> m !! i.
Proof.
  revert m.
  induction idx as [|j idx IH]; intros m Hin; [by apply elem_of_nil in Hin|].
  change (fill_rows (j :: idx) m) with (fill_rows idx (fill_row m j)).
  destruct (decide (i ∈ idx)) as [Hi|Hi].
  - rewrite IH by done. unfold fill_row.
    destruct (decide (j = i)) as [->|Hne].
    + rewrite list_lookup_alter_eq. apply ones_row_idem.
    + by rewrite list_lookup_alter_ne.
  - apply elem_of_cons in Hin as [->|Hin]; [|contradiction].
    rewrite fill_rows_lookup_notin by done.
    unfold fill_row. apply list_lookup_alter_eq.
Qed.

(** [m[:k, :] = 1] turns the rows before [k] into ones and leaves the
    rows from [k] on. *)
Lemma fill_rows_upto_length (k : nat) (m : matrix) :
  length (fill_rows_upto k m) = length m.
Proof.
  unfold fill_rows_upto.
  by rewrite length_app, length_map, <- length_app, take_drop.
Qed.

Lemma fill_rows_upto_lookup (k : nat) (m : matrix) (i : nat) :
  (k <= length m)%nat ->
  fill_rows_upto k m !! i
  = if (i <? k)%nat then ones_row <$> m !! i else m !! i.
Proof.
  intros Hk. unfold fill_rows_upto.
  destruct (i <? k)%nat eqn:E.
  - apply Nat.ltb_lt in E.
    rewrite lookup_app_l by (rewrite length_map, length_take_le; lia).
    change (map ones_row (take k m)) with (ones_row <$> take k m).
    rewrite list_lookup_fmap. by rewrite lookup_take_lt.
  - apply Nat.ltb_ge in E.
    rewrite lookup_app_r by (rewrite length_map, length_take_le; lia).
    rewrite length_map, length_take_le by lia.
    rewrite lookup_drop. f_equal. lia.
Qed.

Lemma zeros_like_lookup (mx : matrix) (i : nat) (r : row) :
  mx !! i = Some r ->
  (zeros_like 2 mx : matrix) !! i = Some (replicate (length r) 0).
Proof.
  intros Hrow. unfold zeros_like. simpl.
  change (map (map (fun _ : Q => 0)) mx) with (map (fun _ : Q => 0) <$> mx).
  rewrite list_lookup_fmap, Hrow. simpl.
  by rewrite map_const_replicate.
Qed.

Lemma zeros_like_length (mx : matrix) :
  length (zeros_like 2 mx : matrix) = length mx.
Proof. unfold zeros_like. simpl. apply length_map. Qed.

Lemma ones_row_replicate (w : nat) (c : Q) :
  ones_row (replicate w c) = replicate w 1.
Proof.
  unfold ones_row. by rewrite map_const_replicate, length_replicate.
Qed.

(** The mask of one image in mode [ebm]. *)
Lemma ebm_row_mask (mx : matrix) :
  row_mask even_row mx
    (fill_rows (arange 0 (length (zeros_like 2 mx)) 2) (zeros_like 2 mx)).
Proof.
  split; [by rewrite fill_rows_length, zeros_like_length|].
  intros i r Hrow. rewrite zeros_like_length. unfold even_row.
  pose proof (lookup_lt_Some _ _ _ Hrow) as Hlt.
  destruct (Nat.even i) eqn:E.
  - rewrite fill_rows_lookup_in by (apply elem_of_arange_even; done).
    rewrite (zeros_like_lookup mx i r Hrow). simpl.
    by rewrite ones_row_replicate.
  - rewrite fill_rows_lookup_notin.
    + by apply zeros_like_lookup.
    + intros Hin. apply elem_of_arange_even in Hin as [_ Hev]. congruence.
Qed.

(** The mask of one image in mode [flow]. *)
Lemma flow_row_mask (mx : matrix) :
  row_mask top_half mx
    (fill_rows_upto (length (zeros_like 2 mx) / 2) (zeros_like 2 mx)).
Proof.
  split; [by rewrite fill_rows_upto_length, zeros_like_length|].
  intros i r Hrow. unfold top_half.
  rewrite fill_rows_upto_lookup
    by (apply Nat.Div0.div_le_upper_bound; lia).
  rewrite zeros_like_length, (zeros_like_lookup mx i r Hrow).
  destruct (i <? length mx / 2)%nat; simpl; [|reflexivity].
  by rewrite ones_row_replicate.
Qed.

Lemma Forall2_map_diag {A B : Type} (P : A -> B -> Prop) (g : A -> B) (l : list A) :
  (forall a, P a (g a)) -> Forall2 P l (map g l).
Proof.
  intros HP. induction l as [|a l IH]; simpl; constructor; auto.
Qed.

Lemma corruption_mask_ebm (n : nat) (x : tensor (2 + n)) :
  Forall2 (row_mask even_row) (matrices n x)
    (matrices n (corruption_mask n x "ebm")).
Proof.
  unfold corruption_mask. simpl String.eqb. cbv iota.
  rewrite matrices_on_matrices. unfold zeros_like at 1.
  rewrite matrices_tmap, map_map.
  apply Forall2_map_diag. intros mx. apply ebm_row_mask.
Qed.

Lemma corruption_mask_flow (n : nat) (x : tensor (2 + n)) :
  Forall2 (row_mask top_half) (matrices n x)
    (matrices n (corruption_mask n x "flow")).
Proof.
  unfold corruption_mask. simpl String.eqb. cbv iota.
  rewrite matrices_on_matrices. unfold zeros_like at 1.
  rewrite matrices_tmap, map_map.
  apply Forall2_map_diag. intros mx. apply flow_row_mask.
Qed.

(** ** [corruption] *)

(** With a valid mode the assertion passes. *)
Lemma corruption_valid (n : nat) (x : tensor (2 + n)) (type_ : string)
    (noise_scale : Q) (randn : tensor (2 + n)) :
  type_ = "ebm" \/ type_ = "flow" ->
  exists broken,
    corruption n x type_ noise_scale randn
    = Ok (clamp (2 + n) broken eps (1 - eps), corruption_mask n x type_).
Proof.
  intros Hmode. unfold corruption.
  rewrite bool_decide_eq_true_2; [simpl negb; cbv iota; eauto|].
  destruct Hmode as [-> | ->]; set_solver.
Qed.

Lemma clamp_within (n : nat) (t : tensor n) (lo hi : Q) :
  lo <= hi -> within lo hi n (clamp n t lo hi).
Proof.
  intros Hle. unfold within, clamp. rewrite elems_tmap.
  apply Forall_fmap, Forall_forall. intros v _. simpl. split.
  - apply Q.min_glb; [apply Q.le_max_r | exact Hle].
  - apply Q.le_min_r.
Qed.

Lemma all2_same_shape_map (k : nat) (f : tensor k -> tensor k) (x y : list (tensor k)) :
  (forall a b, same_shape k a b = true -> f a = f b) ->
  all2 (same_shape k) x y = true -> map f x = map f y.
Proof.
  intros Hf. revert y.
  induction x as [|a x IH]; intros [|b y] Hxy; simpl in *; try discriminate.
  - reflexivity.
  - apply andb_true_iff in Hxy as [Hab Hxy].
    by rewrite (Hf a b Hab), (IH y Hxy).
Qed.

(** [zeros_like] sees the shape only. *)
Lemma zeros_like_same_shape (n : nat) (x y : tensor n) :
  same_shape n x y = true -> zeros_like n x = zeros_like n y.
Proof.
  unfold zeros_like. revert x y.
  induction n as [|k IH]; intros x y Hxy; simpl in *; [reflexivity|].
  by apply all2_same_shape_map.
Qed.

Lemma corruption_mask_same_shape (n : nat) (x y : tensor (2 + n)) (type_ : string) :
  same_shape (2 + n) x y = true ->
  corruption_mask n x type_ = corruption_mask n y type_.
Proof.
  intros Hxy. unfold corruption_mask.
  by rewrite (zeros_like_same_shape (2 + n) x y Hxy).
Qed.

(** C6.  In mode [ebm] the mask returned for an image tensor has, in each
    of its matrices, the rows of even index (0, 2, 4, ...) set to 1
    throughout and the rows of odd index set to 0 throughout. *)
Theorem corruption_ebm_even_rows (n : nat) (x : tensor (2 + n))
    (noise_scale : Q) (randn : tensor (2 + n)) :
  exists broken mask,
    corruption n x "ebm" noise_scale randn = Ok (broken, mask) /\
    Forall2 (row_mask even_row) (matrices n x) (matrices n mask).
Proof.
  destruct (corruption_valid n x "ebm" noise_scale randn) as [b Hb];
    [by left|].
  eexists _, _. split; [exact Hb|]. apply corruption_mask_ebm.
Qed.

(** C1, as the code has it.  In mode [flow] the mask returned for an
    image tensor has, in each of its matrices with [H] rows, the rows of
    index below [H / 2] (the top half) set to 1 throughout and the other
    rows set to 0 throughout: the lower part is the corrupted one. *)
Theorem corruption_flow_top_half (n : nat) (x : tensor (2 + n))
    (noise_scale : Q) (randn : tensor (2 + n)) :
  exists broken mask,
    corruption n x "flow" noise_scale randn = Ok (broken, mask) /\
    Forall2 (row_mask top_half) (matrices n x) (matrices n mask).
Proof.
  destruct (corruption_valid n x "flow" noise_scale randn) as [b Hb];
    [by right|].
  eexists _, _. split; [exact Hb|]. apply corruption_mask_flow.
Qed.

(** C1 fails as stated: on the 4 by 4 image of ones the rows of the mask
    are 1, 1, 0, 0 and not 0, 0, 1, 1. *)
Lemma corruption_flow_4x4_rows :
  exists broken mask,
    corruption 0 ones4 "flow" default_noise_scale ones4 = Ok (broken, mask) /\
    mask = [[1; 1; 1; 1]; [1; 1; 1; 1]; [0; 0; 0; 0]; [0; 0; 0; 0]] /\
    ~ Forall2 (row_mask bottom_half) (matrices 0 ones4) (matrices 0 mask).
Proof.
  eexists _, _. split; [reflexivity|]. split; [reflexivity|].
  intros HF. apply Forall2_cons_1 in HF as [[_ Hrows] _].
  specialize (Hrows 0%nat [1; 1; 1; 1] eq_refl). discriminate.
Qed.

(** C7.  For a valid mode, whatever the input, the noise scale and the
    noise that was drawn, every entry of the corrupted tensor lies between
    [1e-4] and [1 - 1e-4]. *)
Theorem corruption_within_bounds (n : nat) (x : tensor (2 + n)) (type_ : string)
    (noise_scale : Q) (randn : tensor (2 + n)) :
  type_ = "ebm" \/ type_ = "flow" ->
  exists broken mask,
    corruption n x type_ noise_scale randn = Ok (broken, mask) /\
    within eps (1 - eps) (2 + n) broken.
Proof.
  intros Hmode.
  destruct (corruption_valid n x type_ noise_scale randn Hmode) as [b Hb].
  eexists _, _. split; [exact Hb|].
  apply clamp_within. discriminate.
Qed.

(** C7 on a batch of two images with a noise draw far outside the
    interval. *)
Lemma corruption_within_bounds_witness :
  exists broken mask,
    corruption 1 batch22 "flow" default_noise_scale noise22 = Ok (broken, mask) /\
    within eps (1 - eps) 3 broken.
Proof.
  apply (corruption_within_bounds 1 batch22 "flow" default_noise_scale noise22).
  right. reflexivity.
Defined.

(** C10.  For two inputs of one shape and one valid mode, [corruption]
    returns the same mask, whatever the entries of the inputs, the noise
    scales and the noise that was drawn. *)
Theorem corruption_mask_shape_only (n : nat) (x y : tensor (2 + n)) (type_ : string)
    (noise_scale noise_scale' : Q) (randn randn' : tensor (2 + n)) :
  same_shape (2 + n) x y = true ->
  type_ = "ebm" \/ type_ = "flow" ->
  exists broken broken' mask,
    corruption n x type_ noise_scale randn = Ok (broken, mask) /\
    corruption n y type_ noise_scale' randn' = Ok (broken', mask).
Proof.
  intros Hxy Hmode.
  destruct (corruption_valid n x type_ noise_scale randn Hmode) as [b Hb].
  destruct (corruption_valid n y type_ noise_scale' randn' Hmode) as [b' Hb'].
  eexists _, _, _. split; [exact Hb|].
  by rewrite (corruption_mask_same_shape n x y type_ Hxy).
Qed.

(** C10 on two 4 by 4 images with different entries, noise scales and
    noise. *)
Lemma corruption_mask_shape_only_witness :
  same_shape 2 ones4 (tmap (fun v => v / 3) 2 ones4) = true /\
  exists broken broken' mask,
    corruption 0 ones4 "ebm" default_noise_scale ones4 = Ok (broken, mask) /\
    corruption 0 (tmap (fun v => v / 3) 2 ones4) "ebm" 1
      (tmap (fun v => 5 - v) 2 ones4) = Ok (broken', mask).
Proof.
  split; [reflexivity|].
  apply (corruption_mask_shape_only 0 ones4 (tmap (fun v => v / 3) 2 ones4) "ebm");
    [reflexivity | left; reflexivity].
Defined.

(** ** [get_sigmas] *)

(** C9.  With the kind [uniform], begin 1, end 10 and count 10,
    [get_sigmas] returns ten values, the first 1 and the last 10, equal in
    order to 1, 2, ..., 10, each exceeding the one before by 1. *)
Theorem get_sigmas_uniform_1_10 (np_exp np_log : Q -> Q) :
  exists sigmas,
    get_sigmas np_exp np_log uniform_1_10 = Ok sigmas /\
    length sigmas = 10%nat /\
    Forall2 Qeq sigmas [1; 2; 3; 4; 5; 6; 7; 8; 9; 10] /\
    (forall (i : nat) (a b : Q),
       sigmas !! i = Some a -> sigmas !! S i = Some b -> b - a == 1).
Proof.
  eexists. split; [reflexivity|]. split; [reflexivity|]. split.
  - repeat constructor.
  - intros i a b Ha Hb.
    do 10 (destruct i as [|i];
           [vm_compute in Ha, Hb; try discriminate;
            injection Ha as <-; injection Hb as <-; reflexivity|]).
    vm_compute in Ha. discriminate.
Qed.

(** ** Checkpoints: the file that [save_model] writes *)

Section CheckpointFile.

Context {obj : Type}.
Variable state_dict : obj -> obj.

Lemma lookup_set_Some key key' f (v : pyval obj) (d : checkpoint obj) (w : pyval obj) :
  set_if_not_none key f v d !! key' = Some w ->
  (key' = key /\ w <> PyNone /\ v <> PyNone) \/ d !! key' = Some w.
Proof.
  unfold set_if_not_none. destruct v as [|o]; [by right|].
  intros Hw. apply lookup_insert_Some in Hw as [[<- <-]|[_ Hw]].
  - left. by repeat split.
  - by right.
Qed.

Lemma lookup_set_None key f (v : pyval obj) (d : checkpoint obj) :
  d !! key = None ->
  set_if_not_none key f v d !! key = None <-> v = PyNone.
Proof.
  intros Hd. unfold set_if_not_none. destruct v as [|o].
  - by rewrite Hd.
  - rewrite lookup_insert_eq. split; discriminate.
Qed.

(** X2.  [load_model] raises [FileNotFoundError] exactly when nothing is
    stored at the path. *)
Theorem load_model_missing_file (fs : store obj) (path : string) :
  load_model fs path = Raise (FileNotFoundError path) <-> fs !! path = None.
Proof.
  unfold load_model, torch_load. destruct (fs !! path) as [d|]; simpl.
  - unfold dict_getitem. destruct (d !! "model"); simpl; split; discriminate.
  - split; reflexivity.
Qed.

(** X3.  The dict that [save_model] writes at the path holds the model's
    state dict under [model]; it holds no [None] and no key besides the
    five known ones; and each optional key is in it exactly when its
    argument was supplied. *)
Theorem save_model_file (fs : store obj) (path : string) (m : obj)
    (optimizer replay_buffer discriminator optimizer_d : pyval obj) :
  exists d : checkpoint obj,
    save_model state_dict fs path m
      optimizer replay_buffer discriminator optimizer_d !! path = Some d /\
    d !! "model" = Some (PyObj (state_dict m)) /\
    (forall key v, d !! key = Some v ->
       v <> PyNone /\
       key ∈ ["model"; "optimizer"; "replay_buffer"; "discriminator";
              "optimizer_d"]) /\
    (d !! "optimizer" = None <-> optimizer = PyNone) /\
    (d !! "replay_buffer" = None <-> replay_buffer = PyNone) /\
    (d !! "discriminator" = None <-> discriminator = PyNone) /\
    (d !! "optimizer_d" = None <-> optimizer_d = PyNone).
Proof.
  unfold save_model, torch_save. eexists. split; [apply lookup_insert_eq|].
  split; [|split; [|repeat split]].
  - rewrite !lookup_set_ne by done. apply lookup_singleton_eq.
  - intros key v Hv.
    repeat (apply lookup_set_Some in Hv as [(-> & Hv & _)|Hv];
            [split; [exact Hv | set_solver]|]).
    apply lookup_singleton_Some in Hv as [<- <-].
    split; [discriminate | set_solver].
  - rewrite !lookup_set_ne by done. intros H.
    apply lookup_set_None in H; [done | by rewrite lookup_singleton_ne].
  - intros ->. rewrite !lookup_set_ne by done. simpl.
    by rewrite lookup_singleton_ne.
  - rewrite !lookup_set_ne by done. intros H.
    apply lookup_set_None in H; [done|].
    rewrite !lookup_set_ne by done. by rewrite lookup_singleton_ne.
  - intros ->. rewrite !lookup_set_ne by done. simpl.
    rewrite !lookup_set_ne by done. by rewrite lookup_singleton_ne.
  - rewrite !lookup_set_ne by done. intros H.
    apply lookup_set_None in H; [done|].
    rewrite !lookup_set_ne by done. by rewrite lookup_singleton_ne.
  - intros ->. rewrite !lookup_set_ne by done. simpl.
    rewrite !lookup_set_ne by done. by rewrite lookup_singleton_ne.
  - intros H.
    apply lookup_set_None in H; [done|].
    rewrite !lookup_set_ne by done. by rewrite lookup_singleton_ne.
  - intros ->. simpl.
    rewrite !lookup_set_ne by done. by rewrite lookup_singleton_ne.
Qed.

End CheckpointFile.

(** ** Shapes *)

Lemma all2_map_r {A B : Type} (p : A -> B -> bool) (g : A -> B) (l : list A) :
  (forall a, p a (g a) = true) -> all2 p l (map g l) = true.
Proof.
  intros Hp. induction l as [|a l IH]; simpl; [reflexivity|].
  by rewrite Hp, IH.
Qed.

Lemma all2_zip_with {A : Type} (p : A -> A -> bool) (f : A -> A -> A) (l k : list A) :
  (forall a b, p a b = true -> p a (f a b) = true) ->
  all2 p l k = true -> all2 p l (zip_with f l k) = true.
Proof.
  intros Hp. revert k.
  induction l as [|a l IH]; intros [|b k] Hlk; simpl in *; try discriminate.
  - reflexivity.
  - apply andb_true_iff in Hlk as [Hab Hlk]. by rewrite (Hp a b Hab), IH.
Qed.

Lemma all2_sym {A : Type} (p : A -> A -> bool) (l k : list A) :
  (forall a b, p a b = true -> p b a = true) ->
  all2 p l k = true -> all2 p k l = true.
Proof.
  intros Hp. revert k.
  induction l as [|a l IH]; intros [|b k] Hlk; simpl in *; try discriminate.
  - reflexivity.
  - apply andb_true_iff in Hlk as [Hab Hlk]. by rewrite (Hp a b Hab), IH.
Qed.

Lemma all2_trans {A : Type} (p : A -> A -> bool) (l k j : list A) :
  (forall a b c, p a b = true -> p b c = true -> p a c = true) ->
  all2 p l k = true -> all2 p k j = true -> all2 p l j = true.
Proof.
  intros Hp. revert k j.
  induction l as [|a l IH]; intros [|b k] [|c j] Hlk Hkj; simpl in *;
    try discriminate.
  - reflexivity.
  - apply andb_true_iff in Hlk as [Hab Hlk].
    apply andb_true_iff in Hkj as [Hbc Hkj].
    by rewrite (Hp a b c Hab Hbc), (IH k j Hlk Hkj).
Qed.

Lemma same_shape_tmap (f : Q -> Q) (n : nat) (x : tensor n) :
  same_shape n x (tmap f n x) = true.
Proof.
  induction n as [|k IH]; simpl; [reflexivity|]. by apply all2_map_r.
Qed.

Lemma same_shape_sym (n : nat) (x y : tensor n) :
  same_shape n x y = true -> same_shape n y x = true.
Proof.
  revert x y. induction n as [|k IH]; intros x y; simpl; [done|].
  apply all2_sym. exact IH.
Qed.

Lemma same_shape_trans (n : nat) (x y z : tensor n) :
  same_shape n x y = true -> same_shape n y z = true -> same_shape n x z = true.
Proof.
  revert x y z. induction n as [|k IH]; intros x y z; simpl; [done|].
  apply all2_trans. exact IH.
Qed.

Lemma same_shape_refl (n : nat) (x : tensor n) : same_shape n x x = true.
Proof.
  induction n as [|k IH]; simpl; [reflexivity|].
  induction x as [|a x IHx]; simpl; [reflexivity|]. by rewrite IH, IHx.
Qed.

Lemma same_shape_tzip (f : Q -> Q -> Q) (n : nat) (x y : tensor n) :
  same_shape n x y = true -> same_shape n x (tzip f n x y) = true.
Proof.
  revert x y. induction n as [|k IH]; intros x y; simpl; [done|].
  apply all2_zip_with. exact IH.
Qed.

Lemma same_shape_elems_length (n : nat) (x y : tensor n) :
  same_shape n x y = true -> length (elems n x) = length (elems n y).
Proof.
  revert x y. induction n as [|k IH]; intros x y; simpl; [done|].
  revert y. induction x as [|a x IHx]; intros [|b y] Hxy; simpl in *;
    try discriminate; [reflexivity|].
  apply andb_true_iff in Hxy as [Hab Hxy].
  by rewrite !length_app, (IH a b Hab), (IHx y Hxy).
Qed.

(** The entries of an entrywise operation on two tensors of one shape. *)
Lemma elems_tzip (f : Q -> Q -> Q) (n : nat) (x y : tensor n) :
  same_shape n x y = true ->
  elems n (tzip f n x y) = zip_with f (elems n x) (elems n y).
Proof.
  revert x y. induction n as [|k IH]; intros x y; simpl; [done|].
  revert y. induction x as [|a x IHx]; intros [|b y] Hxy; simpl in *;
    try discriminate; [reflexivity|].
  apply andb_true_iff in Hxy as [Hab Hxy].
  rewrite zip_with_app by (by apply same_shape_elems_length).
  by rewrite (IH a b Hab), (IHx y Hxy).
Qed.

(** ** [rescale]: what a returned tensor is *)

Lemma remap_strict (lo hi M m a b : Q) :
  lo < hi -> m < M -> a < b -> remap lo hi M m a < remap lo hi M m b.
Proof.
  intros Hlt HmM Hab. unfold remap.
  assert (Hs : 0 < (hi - lo) / (M - m)).
  { apply Qlt_shift_div_l; lra. }
  apply Qplus_lt_le_compat; [|apply Qle_refl].
  apply Qmult_lt_compat_r; [exact Hs | lra].
Qed.

(** When [rescale] returns, the bounds were in order, the input had a
    maximum above its minimum, and each entry went through [remap]. *)
Lemma rescale_Ok_inv (n : nat) (x y : tensor n) (lo hi : Q) :
  rescale n x lo hi = Ok y ->
  lo < hi /\
  exists M m,
    torch_max n x = Ok M /\ torch_min n x = Ok m /\ m < M /\
    elems n y = map (remap lo hi M m) (elems n x) /\
    same_shape n x y = true.
Proof.
  intros Hy. destruct (Qlt_bool lo hi) eqn:Hlt.
  - apply Qlt_bool_iff in Hlt. split; [exact Hlt|].
    destruct (torch_max n x) as [M| |] eqn:HM;
      [| unfold rescale in Hy; rewrite HM in Hy;
         destruct (negb (Qlt_bool lo hi)); discriminate ..].
    destruct (torch_min n x) as [m| |] eqn:Hm;
      [| unfold rescale in Hy; rewrite HM, Hm in Hy;
         destruct (negb (Qlt_bool lo hi)); discriminate ..].
    exists M, m. split; [reflexivity|]. split; [reflexivity|].
    rewrite (rescale_unfold n x lo hi M m Hlt HM Hm) in Hy.
    assert (HmM : m < M).
    { pose proof HM as HM'. pose proof Hm as Hm'.
      apply torch_max_Ok, list_max_spec in HM' as [_ HMle].
      apply torch_min_Ok, list_min_spec in Hm' as [Hmin _].
      rewrite Forall_forall in HMle. specialize (HMle m Hmin).
      destruct (Qlt_le_dec m M) as [Hlt'|Hge]; [exact Hlt'|].
      rewrite fdiv_zero in Hy; [discriminate|].
      assert (M == m) by (by apply Qle_antisym). lra. }
    split; [exact HmM|].
    rewrite fdiv_nonzero in Hy by lra. injection Hy as <-.
    split.
    + rewrite !elems_tmap, !map_map. reflexivity.
    + eapply same_shape_trans; [apply same_shape_tmap|].
      eapply same_shape_trans; apply same_shape_tmap.
  - unfold rescale in Hy. rewrite Hlt in Hy. discriminate.
Qed.

(** X5.  A tensor that [rescale] returns has the shape of the input. *)
Theorem rescale_same_shape (n : nat) (x y : tensor n) (lo hi : Q) :
  rescale n x lo hi = Ok y -> same_shape n x y = true.
Proof.
  intros Hy. by apply rescale_Ok_inv in Hy as (_ & M & m & _ & _ & _ & _ & Hs).
Qed.

Lemma rescale_same_shape_witness :
  exists y, rescale 3 batch22 0 1 = Ok y /\ same_shape 3 batch22 y = true.
Proof.
  eexists. split; [reflexivity|].
  eapply (rescale_same_shape 3 batch22 _ 0 1). reflexivity.
Defined.

(** X7.  With [lo < hi], [rescale] raises [RuntimeError] exactly when the
    input has no entries. *)
Theorem rescale_empty (n : nat) (x : tensor n) (lo hi : Q) :
  lo < hi ->
  (rescale n x lo hi = Raise RuntimeError <-> elems n x = []).
Proof.
  intros Hlt. unfold rescale. apply Qlt_bool_iff in Hlt. rewrite Hlt. simpl.
  unfold torch_max, torch_min.
  destruct (elems n x) as [|v l] eqn:E; simpl; [split; reflexivity|].
  unfold fdiv. destruct (Qeq_bool _ 0); simpl; split; discriminate.
Qed.

Lemma rescale_empty_witness :
  rescale 3 [[]; []] 0 1 = Raise RuntimeError /\
  rescale 2 img32 0 1 <> Raise RuntimeError.
Proof.
  split.
  - apply (rescale_empty 3 [[]; []] 0 1); reflexivity.
  - intros H. apply (rescale_empty 2 img32 0 1) in H; [discriminate H | reflexivity].
Defined.

(** ** [corruption]: modes, shapes and entries *)

Lemma corruption_Ok_inv (n : nat) (x : tensor (2 + n)) (type_ : string)
    (noise_scale : Q) (randn broken mask : tensor (2 + n)) :
  corruption n x type_ noise_scale randn = Ok (broken, mask) ->
  (type_ = "ebm" \/ type_ = "flow") /\
  mask = corruption_mask n x type_ /\
  broken =
    clamp (2 + n)
      (tzip Qplus (2 + n)
         (tzip Qmult (2 + n) x mask)
         (tzip Qmult (2 + n)
            (tmap (fun v => v * noise_scale) (2 + n)
               (tmap (fun m => 1 - m) (2 + n) mask))
            randn))
      eps (1 - eps).
Proof.
  unfold corruption.
  destruct (bool_decide (type_ ∈ ["ebm"; "flow"])) eqn:E; simpl negb; cbv iota;
    [|discriminate].
  intros Hc. injection Hc as <- <-. split; [|split; reflexivity].
  apply bool_decide_eq_true_1 in E.
  apply elem_of_cons in E as [->|E]; [by left|].
  apply elem_of_cons in E as [->|E]; [by right|].
  by apply elem_of_nil in E.
Qed.

(** X10.  [corruption] raises the assertion failure exactly when the
    mode is neither [ebm] nor [flow]. *)
Theorem corruption_invalid_mode (n : nat) (x : tensor (2 + n)) (type_ : string)
    (noise_scale : Q) (randn : tensor (2 + n)) :
  corruption n x type_ noise_scale randn = Raise AssertionError
  <-> type_ <> "ebm" /\ type_ <> "flow".
Proof.
  split.
  - intros Hr. split; intros ->;
      [destruct (corruption_valid n x "ebm" noise_scale randn) as [b Hb];
         [by left|]
      |destruct (corruption_valid n x "flow" noise_scale randn) as [b Hb];
         [by right|]];
      rewrite Hb in Hr; discriminate.
  - intros [He Hf]. unfold corruption.
    rewrite bool_decide_eq_false_2; [reflexivity|].
    intros Hin.
    apply elem_of_cons in Hin as [->|Hin]; [done|].
    apply elem_of_cons in Hin as [->|Hin]; [done|].
    by apply elem_of_nil in Hin.
Qed.

Lemma elems_matrices (n : nat) (t : tensor (2 + n)) :
  elems (2 + n) t = concat (map (elems 2) (matrices n t)).
Proof.
  induction n as [|k IH].
  - simpl. by rewrite app_nil_r.
  - change (elems (2 + S k) t) with (concat (map (elems (2 + k)) t)).
    change (matrices (S k) t) with (concat (map (matrices k) t)).
    induction t as [|a t IHt]; [reflexivity|].
    change (concat (map (elems (2 + k)) (a :: t)))
      with (elems (2 + k) a ++ concat (map (elems (2 + k)) t))%list.
    change (concat (map (matrices k) (a :: t)))
      with (matrices k a ++ concat (map (matrices k) t))%list.
    by rewrite map_app, concat_app, IH, IHt.
Qed.

Lemma elems_row (r : row) : elems 1 r = r.
Proof.
  simpl. induction r as [|v r IH]; simpl; [reflexivity | by rewrite IH].
Qed.

(** A mask made of rows of ones and rows of zeros holds ones and zeros. *)
Lemma row_mask_binary (sel : nat -> nat -> bool) (mx mm : matrix) :
  row_mask sel mx mm -> Forall (fun v => v = 0 \/ v = 1) (elems 2 mm).
Proof.
  intros [Hlen Hrows].
  change (elems 2 mm) with (concat (map (elems 1) mm)).
  apply Forall_concat, Forall_fmap, Forall_forall. intros r' Hr'.
  apply list_elem_of_lookup in Hr' as [i Hi].
  pose proof (lookup_lt_Some _ _ _ Hi) as Hlt.
  assert (Hlt' : (i < length mx)%nat) by (rewrite <- Hlen; exact Hlt).
  apply lookup_lt_is_Some in Hlt' as [r Hr].
  pose proof (Hrows i r Hr) as Hi'.
  assert (Hr' : Some r' = Some (replicate (length r)
                                  (if sel (length mx) i then 1 else 0)))
    by (rewrite <- Hi'; symmetry; exact Hi).
  injection Hr' as ->.
  unfold compose. rewrite elems_row. apply Forall_replicate.
  destruct (sel (length mx) i); auto.
Qed.

Lemma same_shape_ones_row (r : row) : same_shape 1 r (ones_row r) = true.
Proof. unfold ones_row. simpl. by apply all2_map_r. Qed.

Lemma same_shape_fill_row (m : matrix) (i : nat) :
  same_shape 2 m (fill_row m i) = true.
Proof.
  unfold fill_row. revert i.
  induction m as [|r m IH]; intros i; [reflexivity|].
  destruct i as [|i].
  - change (same_shape 1 r (ones_row r) && same_shape 2 m m = true).
    by rewrite same_shape_ones_row, same_shape_refl.
  - change (same_shape 1 r r && same_shape 2 m (alter ones_row i m) = true).
    by rewrite same_shape_refl, IH.
Qed.

Lemma same_shape_fill_rows (idx : list nat) (m : matrix) :
  same_shape 2 m (fill_rows idx m) = true.
Proof.
  unfold fill_rows. revert m.
  induction idx as [|i idx IH]; intros m; [apply same_shape_refl|].
  change (foldl fill_row m (i :: idx)) with (foldl fill_row (fill_row m i) idx).
  eapply (same_shape_trans 2); [apply same_shape_fill_row | apply IH].
Qed.

Lemma same_shape_fill_rows_upto (k : nat) (m : matrix) :
  same_shape 2 m (fill_rows_upto k m) = true.
Proof.
  unfold fill_rows_upto. revert k.
  induction m as [|r m IH]; intros k; [by destruct k|].
  destruct k as [|k]; [apply (same_shape_refl 2)|].
  change (same_shape 1 r (ones_row r)
          && same_shape 2 m (map ones_row (take k m) ++ drop k m)%list = true).
  by rewrite same_shape_ones_row, IH.
Qed.

Lemma same_shape_on_matrices (f : matrix -> matrix) (n : nat) (t : tensor (2 + n)) :
  (forall m : matrix, same_shape 2 m (f m) = true) ->
  same_shape (2 + n) t (on_matrices f n t) = true.
Proof.
  intros Hf. induction n as [|k IH]; [apply Hf|].
  change (all2 (same_shape (2 + k)) t (map (on_matrices f k) t) = true).
  by apply all2_map_r.
Qed.

Lemma same_shape_corruption_mask (n : nat) (x : tensor (2 + n)) (type_ : string) :
  same_shape (2 + n) x (corruption_mask n x type_) = true.
Proof.
  unfold corruption_mask.
  assert (Hz : same_shape (2 + n) x (zeros_like (2 + n) x) = true)
    by apply same_shape_tmap.
  destruct (String.eqb type_ "ebm");
    [|destruct (String.eqb type_ "flow"); [|exact Hz]].
  - eapply same_shape_trans; [exact Hz|].
    apply same_shape_on_matrices. intros m. apply same_shape_fill_rows.
  - eapply same_shape_trans; [exact Hz|].
    apply same_shape_on_matrices. intros m. apply same_shape_fill_rows_upto.
Qed.

(** X11.  The mask that [corruption] returns has the shape of the input
    and holds nothing but 0 and 1. *)
Theorem corruption_mask_binary (n : nat) (x : tensor (2 + n)) (type_ : string)
    (noise_scale : Q) (randn broken mask : tensor (2 + n)) :
  corruption n x type_ noise_scale randn = Ok (broken, mask) ->
  same_shape (2 + n) x mask = true /\
  Forall (fun v => v = 0 \/ v = 1) (elems (2 + n) mask).
Proof.
  intros Hc. apply corruption_Ok_inv in Hc as (Hmode & -> & _).
  split; [apply same_shape_corruption_mask|].
  rewrite elems_matrices. apply Forall_concat, Forall_fmap.
  destruct Hmode as [-> | ->].
  - pose proof (corruption_mask_ebm n x) as HF.
    induction HF as [|mx mm lx lm Hrow _ IH]; constructor; [|exact IH].
    simpl. by apply (row_mask_binary even_row mx).
  - pose proof (corruption_mask_flow n x) as HF.
    induction HF as [|mx mm lx lm Hrow _ IH]; constructor; [|exact IH].
    simpl. by apply (row_mask_binary top_half mx).
Qed.

Lemma corruption_mask_binary_witness :
  exists broken mask,
    corruption 1 batch22 "ebm" default_noise_scale noise22 = Ok (broken, mask) /\
    same_shape 3 batch22 mask = true /\
    Forall (fun v => v = 0 \/ v = 1) (elems 3 mask).
Proof.
  eexists _, _. split; [reflexivity|].
  eapply (corruption_mask_binary 1 batch22 "ebm" default_noise_scale noise22).
  reflexivity.
Defined.

Lemma Qclamp_compat (u v lo hi : Q) :
  u == v -> Qmin (Qmax u lo) hi == Qmin (Qmax v lo) hi.
Proof. intros Huv. by rewrite Huv. Qed.

Lemma Qclamp_id (v lo hi : Q) :
  lo <= v -> v <= hi -> Qmin (Qmax v lo) hi == v.
Proof.
  intros Hlo Hhi. rewrite (Q.max_l v lo Hlo). by apply Q.min_l.
Qed.

(** X12.  With noise of the input's shape, the corrupted tensor has the
    shape of the input, and entry by entry it is the clamped input where
    the mask is 1 and the clamped noise times [noise_scale] where the mask
    is 0; an input entry already between [1e-4] and [1 - 1e-4] is kept
    where the mask is 1. *)
Theorem corruption_entries (n : nat) (x : tensor (2 + n)) (type_ : string)
    (noise_scale : Q) (randn broken mask : tensor (2 + n)) :
  same_shape (2 + n) x randn = true ->
  corruption n x type_ noise_scale randn = Ok (broken, mask) ->
  same_shape (2 + n) x broken = true /\
  forall (i : nat) (xi mi zi bi : Q),
    elems (2 + n) x !! i = Some xi ->
    elems (2 + n) mask !! i = Some mi ->
    elems (2 + n) randn !! i = Some zi ->
    elems (2 + n) broken !! i = Some bi ->
    (mi == 1 -> bi == Qmin (Qmax xi eps) (1 - eps)) /\
    (mi == 1 -> eps <= xi -> xi <= 1 - eps -> bi == xi) /\
    (mi == 0 -> bi == Qmin (Qmax (noise_scale * zi) eps) (1 - eps)).
Proof.
  intros Hz Hc.
  apply corruption_Ok_inv in Hc as (_ & Hmask & ->).
  assert (Hm : same_shape (2 + n) x mask = true)
    by (rewrite Hmask; apply same_shape_corruption_mask).
  clear Hmask.
  set (nm := tmap (fun v => v * noise_scale) (2 + n)
               (tmap (fun m => 1 - m) (2 + n) mask)).
  assert (Hnm : same_shape (2 + n) mask nm = true).
  { eapply same_shape_trans; apply same_shape_tmap. }
  assert (Hxnm : same_shape (2 + n) x nm = true)
    by (eapply same_shape_trans; [exact Hm | exact Hnm]).
  assert (Hnz : same_shape (2 + n) nm randn = true).
  { eapply same_shape_trans; [apply same_shape_sym, Hxnm | exact Hz]. }
  assert (Hl : same_shape (2 + n) x (tzip Qmult (2 + n) x mask) = true)
    by (by apply same_shape_tzip).
  assert (Hr : same_shape (2 + n) x (tzip Qmult (2 + n) nm randn) = true).
  { eapply same_shape_trans; [exact Hxnm | by apply same_shape_tzip]. }
  assert (Hlr : same_shape (2 + n) (tzip Qmult (2 + n) x mask)
                  (tzip Qmult (2 + n) nm randn) = true).
  { eapply same_shape_trans; [apply same_shape_sym, Hl | exact Hr]. }
  split.
  - unfold clamp.
    eapply same_shape_trans; [|apply same_shape_tmap].
    eapply same_shape_trans; [exact Hl | by apply same_shape_tzip].
  - intros i xi mi zi bi Hxi Hmi Hzi Hbi.
    unfold clamp in Hbi.
    rewrite elems_tmap in Hbi.
    rewrite (elems_tzip Qplus _ _ _ Hlr) in Hbi.
    rewrite (elems_tzip Qmult _ _ _ Hm) in Hbi.
    rewrite (elems_tzip Qmult _ _ _ Hnz) in Hbi.
    unfold nm in Hbi. rewrite !elems_tmap in Hbi.
    change (map ?f ?l) with (f <$> l) in Hbi.
    rewrite list_lookup_fmap, !lookup_zip_with, !list_lookup_fmap in Hbi.
    rewrite Hxi, Hmi, Hzi in Hbi. simpl in Hbi. injection Hbi as <-.
    assert (H1 : mi == 1 -> xi * mi + (1 - mi) * noise_scale * zi == xi)
      by (intros ->; ring).
    assert (H0 : mi == 0 ->
                 xi * mi + (1 - mi) * noise_scale * zi == noise_scale * zi)
      by (intros ->; ring).
    split; [|split].
    + intros E. by apply Qclamp_compat, H1.
    + intros E Hlo Hhi.
      rewrite (Qclamp_compat _ _ eps (1 - eps) (H1 E)). by apply Qclamp_id.
    + intros E. by apply Qclamp_compat, H0.
Qed.

Lemma corruption_entries_witness :
  exists broken mask,
    corruption 1 batch22 "flow" default_noise_scale noise22 = Ok (broken, mask) /\
    same_shape 3 batch22 broken = true /\
    (forall bi, elems 3 broken !! 0%nat = Some bi -> bi == 1 # 2) /\
    (forall bi, elems 3 broken !! 3%nat = Some bi -> bi == 1 # 10000).
Proof.
  eexists _, _. split; [reflexivity|].
  pose proof (corruption_entries 1 batch22 "flow" default_noise_scale noise22
                _ _ eq_refl eq_refl) as [Hs He].
  split; [exact Hs|]. split.
  - intros bi Hbi.
    destruct (He 0%nat (1 # 2) 1 (-(5 # 2)) bi eq_refl eq_refl eq_refl Hbi)
      as (_ & H1 & _).
    apply H1; [reflexivity | discriminate | discriminate].
  - intros bi Hbi.
    destruct (He 3%nat 1 0 (-1) bi eq_refl eq_refl eq_refl Hbi) as (_ & _ & H0).
    rewrite (H0 (Qeq_refl 0)). reflexivity.
Defined.

(** ** [get_sigmas]: kinds, counts and spacing *)

Lemma linspace_Ok (start stop : Q) (num : Z) :
  (0 <= num)%Z ->
  exists l, linspace start stop num = Ok l /\ length l = Z.to_nat num.
Proof.
  intros Hnum. unfold linspace.
  destruct (num <? 0)%Z eqn:E; [apply Z.ltb_lt in E; lia|].
  eexists. split; [reflexivity|].
  destruct (1 <? num)%Z.
  - by rewrite length_insert, length_map, length_seq.
  - by rewrite length_map, length_seq.
Qed.

Lemma linspace_negative (start stop : Q) (num : Z) :
  (num < 0)%Z -> linspace start stop num = Raise ValueError.
Proof.
  intros Hnum. unfold linspace. apply Z.ltb_lt in Hnum. by rewrite Hnum.
Qed.

Section SigmasFacts.

Variables np_exp np_log : Q -> Q.

(** X13.  [get_sigmas] raises [NotImplementedError] exactly when the
    kind is neither [geometric] nor [uniform]. *)
Theorem get_sigmas_unsupported (cfg : config) :
  get_sigmas np_exp np_log cfg
  = Raise (NotImplementedError "sigma distribution not supported")
  <-> sigma_dist (model cfg) <> "geometric" /\ sigma_dist (model cfg) <> "uniform".
Proof.
  unfold get_sigmas.
  destruct (String.eqb_spec (sigma_dist (model cfg)) "geometric") as [Eg|Eg].
  - split; [|intros [Hg _]; contradiction].
    unfold linspace. destruct (_ <? 0)%Z; simpl; discriminate.
  - destruct (String.eqb_spec (sigma_dist (model cfg)) "uniform") as [Eu|Eu].
    + split; [|intros [_ Hu]; contradiction].
      unfold linspace. destruct (_ <? 0)%Z; simpl; discriminate.
    + split; [by split | reflexivity].
Qed.

(** X14.  For either supported kind, a count that is not negative gives
    exactly that many values, and a negative count raises [ValueError]. *)
Theorem get_sigmas_count (cfg : config) :
  sigma_dist (model cfg) = "geometric" \/ sigma_dist (model cfg) = "uniform" ->
  ((0 <= num_classes (model cfg))%Z ->
     exists sigmas, get_sigmas np_exp np_log cfg = Ok sigmas /\
                    length sigmas = Z.to_nat (num_classes (model cfg))) /\
  ((num_classes (model cfg) < 0)%Z ->
     get_sigmas np_exp np_log cfg = Raise ValueError).
Proof.
  intros Hkind. unfold get_sigmas. split.
  - intros Hnum. destruct Hkind as [-> | ->]; simpl String.eqb; cbv iota.
    + destruct (linspace_Ok (np_log (sigma_begin (model cfg)))
                  (np_log (sigma_end (model cfg))) _ Hnum) as (l & -> & Hlen).
      simpl. eexists. split; [reflexivity|]. by rewrite length_map.
    + by apply linspace_Ok.
  - intros Hnum. destruct Hkind as [-> | ->]; simpl String.eqb; cbv iota.
    + by rewrite linspace_negative.
    + by apply linspace_negative.
Qed.

End SigmasFacts.

(** X14 on the schedule of the claims and on a negative count. *)
Lemma get_sigmas_count_witness :
  (exists sigmas, get_sigmas id id uniform_1_10 = Ok sigmas /\
                  length sigmas = 10%nat) /\
  get_sigmas id id negative_count = Raise ValueError.
Proof.
  split.
  - apply (get_sigmas_count id id uniform_1_10); [right; reflexivity | discriminate].
  - apply (get_sigmas_count id id negative_count); [left; reflexivity | reflexivity].
Defined.

(** X23.  In mode [flow] an image of a single row (or of none) is left
    with nothing visible: [H // 2] is 0, so the whole mask is 0. *)
Theorem corruption_flow_single_row (n : nat) (x : tensor (2 + n))
    (noise_scale : Q) (randn broken mask : tensor (2 + n)) :
  Forall (fun m : matrix => (length m <= 1)%nat) (matrices n x) ->
  corruption n x "flow" noise_scale randn = Ok (broken, mask) ->
  Forall (fun v => v = 0) (elems (2 + n) mask).
Proof.
  intros Hrows Hc. apply corruption_Ok_inv in Hc as (_ & -> & _).
  rewrite elems_matrices. apply Forall_concat, Forall_fmap.
  pose proof (corruption_mask_flow n x) as HF.
  induction HF as [|mx mm lx lm [Hlen Hrow] _ IH];
    constructor; [|apply IH; by apply Forall_cons in Hrows as [_ ?]].
  apply Forall_cons in Hrows as [Hmx _].
  unfold compose. change (elems 2 mm) with (concat (map (elems 1) mm)).
  apply Forall_concat, Forall_fmap, Forall_forall. intros r' Hr'.
  apply list_elem_of_lookup in Hr' as [i Hi].
  pose proof (lookup_lt_Some _ _ _ Hi) as Hlt.
  assert (Hlt' : (i < length mx)%nat) by (rewrite <- Hlen; exact Hlt).
  pose proof Hlt' as Hlt2. apply lookup_lt_is_Some in Hlt2 as [r Hr].
  pose proof (Hrow i r Hr) as Hi'.
  assert (Hr' : Some r' = Some (replicate (length r)
                                  (if top_half (length mx) i then 1 else 0)))
    by (rewrite <- Hi'; symmetry; exact Hi).
  injection Hr' as ->.
  unfold compose. rewrite elems_row. apply Forall_replicate.
  unfold top_half.
  assert (Hdiv : (length mx / 2 = 0)%nat) by (apply Nat.div_small; lia).
  rewrite Hdiv. reflexivity.
Qed.

Lemma corruption_flow_single_row_witness :
  exists broken mask,
    corruption 1 [[[1 # 2; 1 # 3]]; [[1; 0]]] "flow" default_noise_scale
      [[[1; -1]]; [[2; 3]]] = Ok (broken, mask) /\
    Forall (fun v => v = 0) (elems 3 mask).
Proof.
  eexists _, _. split; [reflexivity|].
  eapply (corruption_flow_single_row 1 [[[1 # 2; 1 # 3]]; [[1; 0]]]
            default_noise_scale [[[1; -1]]; [[2; 3]]]);
    [|reflexivity].
  repeat constructor.
Defined.

(** ** [AddGaussianNoise] *)

Lemma AddGaussianNoise_shape (self : AddGaussianNoise) (n : nat)
    (x randn : tensor n) :
  same_shape n x randn = true ->
  same_shape n x (AddGaussianNoise_call self n x randn) = true.
Proof.
  intros Hz. unfold AddGaussianNoise_call. apply same_shape_tzip.
  eapply same_shape_trans; [exact Hz | apply same_shape_tmap].
Qed.

Lemma AddGaussianNoise_lookup (self : AddGaussianNoise) (n : nat)
    (x randn : tensor n) (i : nat) (xi zi : Q) :
  same_shape n x randn = true ->
  elems n x !! i = Some xi -> elems n randn !! i = Some zi ->
  elems n (AddGaussianNoise_call self n x randn) !! i
  = Some (xi + (zi * std self + mean self)).
Proof.
  intros Hz Hxi Hzi. unfold AddGaussianNoise_call.
  rewrite elems_tzip
    by (eapply same_shape_trans; [exact Hz | apply same_shape_tmap]).
  rewrite elems_tmap. change (map ?f ?l) with (f <$> l).
  by rewrite lookup_zip_with, list_lookup_fmap, Hxi, Hzi.
Qed.

(** X18.  [AddGaussianNoise] does not bound its output: for an input with
    an entry, a nonzero [std] and any bound, some noise of the input's
    shape puts an entry of the output above the bound. *)
Theorem AddGaussianNoise_unbounded (self : AddGaussianNoise) (n : nat)
    (x : tensor n) (x0 bound : Q) :
  ~ std self == 0 ->
  elems n x !! 0%nat = Some x0 ->
  exists (randn : tensor n) (o0 : Q),
    same_shape n x randn = true /\
    elems n (AddGaussianNoise_call self n x randn) !! 0%nat = Some o0 /\
    bound < o0.
Proof.
  intros Hstd Hx0.
  set (c := (bound + 1 - x0 - mean self) / std self).
  set (randn := tmap (fun _ => c) n x).
  assert (Hz : same_shape n x randn = true) by apply same_shape_tmap.
  exists randn, (x0 + (c * std self + mean self)).
  split; [exact Hz|].
  assert (Hel : elems n randn !! 0%nat = Some c).
  { unfold randn. rewrite elems_tmap.
    change (map ?f ?l) with (f <$> l). by rewrite list_lookup_fmap, Hx0. }
  split; [by apply AddGaussianNoise_lookup|].
  assert (E : x0 + (c * std self + mean self) == bound + 1)
    by (unfold c; field; exact Hstd).
  rewrite E. lra.
Qed.

Lemma AddGaussianNoise_unbounded_witness :
  exists (randn : tensor 2) (o0 : Q),
    same_shape 2 img32 randn = true /\
    elems 2 (AddGaussianNoise_call default_AddGaussianNoise 2 img32 randn)
      !! 0%nat = Some o0 /\
    1000 < o0.
Proof.
  apply (AddGaussianNoise_unbounded default_AddGaussianNoise 2 img32 (1 # 2) 1000);
    [discriminate | reflexivity].
Defined.

(** ** The dataset transform *)

Lemma elems_add_uniform_noise (n : nat) (x rand : tensor n) (i : nat) (xi ui : Q) :
  same_shape n x rand = true ->
  elems n x !! i = Some xi -> elems n rand !! i = Some ui ->
  elems n (add_uniform_noise n x rand) !! i = Some (xi + ui / 256).
Proof.
  intros Hr Hxi Hui. unfold add_uniform_noise.
  rewrite elems_tzip
    by (eapply same_shape_trans; [exact Hr | apply same_shape_tmap]).
  rewrite elems_tmap. change (map ?f ?l) with (f <$> l).
  by rewrite lookup_zip_with, list_lookup_fmap, Hxi, Hui.
Qed.

(** X20.  The noise of [transform] never mixes 8-bit levels: of two
    pixels at levels [a / 255] and [b / 255] with [a < b], with draws in
    [0, 1), the first stays strictly below the second in the result. *)
Theorem transform_keeps_levels (n : nat) (x rand y : tensor n) (i j : nat)
    (a b : Z) (ui uj yi yj : Q) :
  same_shape n x rand = true ->
  transform n x rand = Ok y ->
  elems n x !! i = Some (inject_Z a / 255) ->
  elems n x !! j = Some (inject_Z b / 255) ->
  (a < b)%Z ->
  elems n rand !! i = Some ui -> elems n rand !! j = Some uj ->
  0 <= ui -> ui < 1 -> 0 <= uj -> uj < 1 ->
  elems n y !! i = Some yi -> elems n y !! j = Some yj ->
  yi < yj.
Proof.
  intros Hr Hy Hxi Hxj Hab Hui Huj Hui0 Hui1 Huj0 Huj1 Hyi Hyj.
  unfold transform, rescale_unit in Hy.
  apply rescale_Ok_inv in Hy as (Hlt & M & m & _ & _ & HmM & Hel & _).
  rewrite Hel in Hyi, Hyj.
  change (map ?f ?l) with (f <$> l) in Hyi, Hyj.
  rewrite list_lookup_fmap,
    (elems_add_uniform_noise n x rand i _ ui Hr Hxi Hui) in Hyi.
  rewrite list_lookup_fmap,
    (elems_add_uniform_noise n x rand j _ uj Hr Hxj Huj) in Hyj.
  simpl in Hyi, Hyj. injection Hyi as <-. injection Hyj as <-.
  apply remap_strict; [exact Hlt | exact HmM |].
  assert (Hab' : inject_Z a + 1 <= inject_Z b).
  { change 1 with (inject_Z 1). rewrite <- inject_Z_plus.
    rewrite <- Zle_Qle. lia. }
  assert (E1 : inject_Z a / 255 == inject_Z a * (1 # 255)) by (field).
  assert (E2 : inject_Z b / 255 == inject_Z b * (1 # 255)) by (field).
  assert (E3 : ui / 256 == ui * (1 # 256)) by (field).
  assert (E4 : uj / 256 == uj * (1 # 256)) by (field).
  rewrite E1, E2, E3, E4. lra.
Qed.

Lemma transform_keeps_levels_witness :
  exists y yi yj,
    transform 2 levels22 rand22 = Ok y /\
    elems 2 y !! 1%nat = Some yi /\ elems 2 y !! 2%nat = Some yj /\ yi < yj.
Proof.
  destruct (transform 2 levels22 rand22) as [y| |] eqn:Ey;
    [| vm_compute in Ey; discriminate Ey ..].
  pose proof (rescale_Ok_inv 2 _ y _ _ Ey) as (_ & _ & _ & _ & _ & _ & _ & Hs).
  pose proof (same_shape_elems_length 2 _ y Hs) as Hlen.
  assert (H1 : (1 < length (elems 2 y))%nat) by (rewrite <- Hlen; simpl; lia).
  assert (H2 : (2 < length (elems 2 y))%nat) by (rewrite <- Hlen; simpl; lia).
  apply lookup_lt_is_Some in H1 as [yi Hyi].
  apply lookup_lt_is_Some in H2 as [yj Hyj].
  exists y, yi, yj. split; [reflexivity|]. split; [exact Hyi|].
  split; [exact Hyj|].
  apply (transform_keeps_levels 2 levels22 rand22 y 1 2 10 11
           (255 # 256) 0 yi yj);
    [reflexivity | exact Ey | reflexivity | reflexivity | reflexivity
    | reflexivity | reflexivity | discriminate | reflexivity | discriminate
    | reflexivity | exact Hyi | exact Hyj].
Defined.

(** ** [MockResidualBlock] *)

(** X21.  With the output activation on, no entry of what [forward]
    returns is negative, whatever the convolutions and the skip path
    compute. *)
Theorem forward_nonnegative (n : nat) (conv projection : tensor n -> tensor n)
    (c_in c_out : nat) (x : tensor n) :
  Forall (fun v => 0 <= v) (elems n (forward n conv projection c_in c_out true x)).
Proof.
  unfold forward, relu. rewrite elems_tmap.
  apply Forall_fmap, Forall_forall. intros v _. simpl. apply Q.le_max_r.
Qed.

(** ** [mkdir] *)

(** X22.  [mkdir] is idempotent: when [os.makedirs] leaves the path
    existing, a [mkdir] that succeeded can be repeated and changes
    nothing; and on a path that exists already [mkdir] changes nothing and
    raises nothing. *)
Theorem mkdir_idempotent {filesystem : Type}
    (os_path_exists : filesystem -> string -> bool)
    (os_makedirs : filesystem -> string -> result filesystem)
    (fs fs' : filesystem) (path : string) :
  (forall s p s', os_makedirs s p = Ok s' -> os_path_exists s' p = true) ->
  mkdir os_path_exists os_makedirs fs path = Ok fs' ->
  mkdir os_path_exists os_makedirs fs' path = Ok fs' /\
  (os_path_exists fs path = true -> fs' = fs).
Proof.
  intros Hmk Hfs. unfold mkdir in *.
  destruct (os_path_exists fs path) eqn:E; simpl negb in Hfs; cbv iota in Hfs.
  - injection Hfs as <-. rewrite E. by split.
  - rewrite (Hmk fs path fs' Hfs). split; [reflexivity | discriminate].
Qed.

Lemma mkdir_idempotent_witness :
  mkdir set_exists set_makedirs ∅ "data" = Ok {[ "data" ]} /\
  mkdir set_exists set_makedirs {[ "data" ]} "data" = Ok {[ "data" ]}.
Proof.
  assert (H : mkdir set_exists set_makedirs ∅ "data" = Ok ({[ "data" ]} ∪ ∅))
    by reflexivity.
  rewrite (right_id_L ∅ (∪)) in H. split; [exact H|].
  apply (mkdir_idempotent set_exists set_makedirs ∅ {[ "data" ]} "data");
    [|exact H].
  intros s p s' Hs. injection Hs as <-. unfold set_exists.
  apply bool_decide_eq_true_2. set_solver.
Defined.

(** ** [is_square] *)

(** An answer of [True] comes from zero or from a root that squares
    back. *)
Lemma is_square_true_inv (int_sqrt : Z -> result Z) (n : Z) :
  is_square int_sqrt n = Ok true ->
  n = 0%Z \/ exists r, int_sqrt n = Ok r /\ n = (r ^ 2)%Z.
Proof.
  unfold is_square. destruct (n =? 0)%Z eqn:E0.
  - intros _. left. by apply Z.eqb_eq in E0.
  - destruct (int_sqrt n) as [r| |]; simpl; [|discriminate ..].
    intros Hr. injection Hr as Hr. apply Z.eqb_eq in Hr.
    right. exists r. by split.
Qed.

(** X24.  [is_square] has no false positive: whatever the float square
    root returns, an answer of [True] means the number is the square of
    an integer. *)
Theorem is_square_sound (int_sqrt : Z -> result Z) (n : Z) :
  is_square int_sqrt n = Ok true -> exists k : Z, n = (k * k)%Z.
Proof.
  intros Hn. apply is_square_true_inv in Hn as [-> | (r & _ & ->)].
  - exists 0%Z. lia.
  - exists r. lia.
Qed.

Lemma is_square_sound_witness : exists k : Z, 49%Z = (k * k)%Z.
Proof. apply (is_square_sound exact_int_sqrt 49). reflexivity. Defined.

(** X25.  Where the float square root is exact, [is_square] answers
    [True] exactly for the squares: a wrong answer can only come from the
    rounding of [n**0.5]. *)
Theorem is_square_exact (int_sqrt : Z -> result Z) (n : Z) :
  int_sqrt n = Ok (Z.sqrt n) ->
  (is_square int_sqrt n = Ok true <-> exists k : Z, n = (k * k)%Z).
Proof.
  intros Hexact. split.
  { intros Hn. apply is_square_true_inv in Hn as [-> | (r & _ & ->)];
      [exists 0%Z | exists r]; lia. }
  intros [k ->]. unfold is_square. destruct (k * k =? 0)%Z; [reflexivity|].
  rewrite Hexact. simpl. f_equal. apply Z.eqb_eq.
  replace (k * k)%Z with (Z.abs k * Z.abs k)%Z by lia.
  rewrite Z.sqrt_square by lia. lia.
Qed.

Lemma is_square_exact_witness :
  is_square exact_int_sqrt 49 = Ok true /\
  is_square exact_int_sqrt 50 <> Ok true.
Proof.
  split.
  - apply (is_square_exact exact_int_sqrt 49); [reflexivity|]. exists 7%Z. reflexivity.
  - discriminate.
Defined.
